(** * JADE: HPC submission engine and structured log events

    A shallow embedding of [jade/hpc/hpc_submitter.py] and of the
    [StructuredLogEvent] class of [jade/events.py], with the properties
    of the batch packer, of the submission loop, of the per-batch
    submitter and of the event records.

    Conventions.
    - A Python class is a [Module]; its instance attributes are the fields
      of a record [t]; a method takes the receiver and returns what the
      method returns, the receiver being threaded as state.
    - Code that cannot fail and touches no shared state is a plain function.
      Code that logs events, talks to the cluster or may raise runs in the
      monad [M]; loops whose exit depends on the outside world take a fuel
      argument.
    - The cluster, the results directory and the clock are not part of the
      repository: they are an environment [Env] of oracles indexed by the
      number of interactions so far ([tick]). *)

From stdpp Require Import gmap strings list pretty.
From Stdlib Require Import ZArith Lia.

Set Warnings "-register-all".
Local Open Scope string_scope.

(** ** Python values and exceptions *)

(** A JSON value, as [json.loads] produces it; keyword arguments and the
    [data] attribute of an event hold such values.  The character level of
    Python's [json] module is outside the repository: a line of the log
    is represented by the JSON document it spells. *)
Inductive json : Type :=
| JNull
| JBool (b : bool)
| JInt (z : Z)
| JStr (s : string)
| JList (l : list json)
| JObject (m : gmap string json).

Inductive exn : Type :=
| ExecutionError (msg : string)
| InvalidConfiguration (msg : string)
| AssertionError
| AttributeError
| IndexError
| KeyError (key : string)
| TypeError.

(** Result of a call that may raise. *)
Inductive result (A : Type) : Type :=
| Ok (a : A)
| Raise (e : exn).
Arguments Ok {A} a.
Arguments Raise {A} e.

(** [v == s] for a Python string [s]. *)
Definition json_eq_str (v : json) (s : string) : bool :=
  match v with
  | JStr s' => bool_decide (s' = s)
  | _ => false
  end.

Definition result_bind {A B} (r : result A) (k : A → result B) : result B :=
  match r with
  | Ok a => k a
  | Raise e => Raise e
  end.

(** [str.replace(old, new)]: every non-overlapping occurrence, left to
    right.  [skip] counts the characters of a match still to be dropped. *)
Fixpoint str_replace_go (old new : string) (skip : nat) (s : string) : string :=
  match s with
  | EmptyString => EmptyString
  | String c s' =>
      match skip with
      | S k => str_replace_go old new k s'
      | O =>
          if String.prefix old s
          then new +:+ str_replace_go old new (String.length old - 1) s'
          else String c (str_replace_go old new 0 s')
      end
  end.

Fixpoint str_intersperse (new : string) (s : string) : string :=
  match s with
  | EmptyString => new
  | String c s' => new +:+ String c (str_intersperse new s')
  end.

Definition str_replace (old new s : string) : string :=
  match old with
  | EmptyString => str_intersperse new s
  | _ => str_replace_go old new 0 s
  end.

(** [os.path.join(a, b)] on a POSIX host. *)
Definition os_path_join (a b : string) : string :=
  if String.prefix "/" b then b
  else if bool_decide (a = "") then b
  else if bool_decide (String.substring (String.length a - 1) 1 a = "/") then a +:+ b
  else a +:+ "/" +:+ b.

(** ** jade/events.py *)

Definition EVENT_CATEGORY_ERROR := "Error".
Definition EVENT_CATEGORY_HPC := "HPC".
Definition EVENT_CATEGORY_RESOURCE_UTIL := "ResourceUtilization".

Definition EVENT_NAME_HPC_SUBMIT := "hpc_submit".
Definition EVENT_NAME_HPC_JOB_ASSIGNED := "hpc_job_assigned".
Definition EVENT_NAME_HPC_JOB_STATE_CHANGE := "hpc_job_state_change".

Module StructuredLogEvent.

Record t : Type := mk {
  source : json;
  category : json;
  name : json;
  message : json;
  timestamp : json;
  data : gmap string json;
}.

(** [__init__(self, source, category, name, message, **kwargs)].
    [now] is what [str(datetime.now())] returns if it is evaluated. *)
Definition __init__ (now : string)
    (source category name message : json) (kwargs : gmap string json) : t :=
  {| source := source;
     category := category;
     name := name;
     message := message;
     timestamp := match kwargs !! "timestamp" with
                  | Some ts => ts
                  | None => JStr now
                  end;
     data := delete "timestamp" kwargs |}.

(** The parameters of [__init__]: a call that also binds one of them
    through [**kwargs] is a [TypeError] (multiple values for one
    argument) before the body runs. *)
Definition parameters : list string :=
  ["self"; "source"; "category"; "name"; "message"].

(** The call [cls(source=.., category=.., name=.., message=.., **kwargs)]. *)
Definition new (now : string)
    (source category name message : json) (kwargs : gmap string json) : result t :=
  if bool_decide (Exists (λ p, is_Some (kwargs !! p)) parameters)
  then Raise TypeError
  else Ok (__init__ now source category name message kwargs).






End StructuredLogEvent.

Module EventsSummary.






(** [list_events(name)] *)
Definition list_events (events : list StructuredLogEvent.t) (name : string)
    : list StructuredLogEvent.t :=
  filter (λ x, json_eq_str (StructuredLogEvent.name x) name) events.

End EventsSummary.

(** ** Collaborators declared outside [src/] *)

(** Modelled from the spec: [jade.enums.Status] is not among the sources;
    section 4.2 gives the submit status as one of GOOD and ERROR. *)
Inductive Status : Type := GOOD | ERROR.

#[global] Instance Status_eq_dec : EqDecision Status.
Proof. solve_decision. Defined.

Module HpcJobStatus.

(** Modelled from the spec: [jade.hpc.common.HpcJobStatus] is not among the
    sources; section 3 gives the states NONE, QUEUED, RUNNING and COMPLETE. *)
Inductive t : Type := NONE | QUEUED | RUNNING | COMPLETE.

#[global] Instance eq_dec : EqDecision t.
Proof. solve_decision. Defined.

(** Modelled from the spec: the [.value] of a state is its string label
    (section 9); distinct states have distinct labels. *)
Definition value (s : t) : string :=
  match s with
  | NONE => "none"
  | QUEUED => "queued"
  | RUNNING => "running"
  | COMPLETE => "complete"
  end.

End HpcJobStatus.

Module Job.

(** Modelled from the spec: the job parameter classes are not among the
    sources; section 3 gives a job a unique name, an opaque command and the
    set [blocked_by] of names still blocking it. *)
Record t : Type := mk {
  name : string;
  command : string;
  blocked_by : gset string;
}.

Definition get_blocking_jobs (self : t) : gset string := blocked_by self.

Definition remove_blocking_job (self : t) (name : string) : t :=
  {| name := Job.name self;
     command := command self;
     blocked_by := blocked_by self ∖ {[name]} |}.

End Job.

(** ** The world the submitter acts on *)

Inductive file_content : Type :=
| ConfigFile (jobs : list Job.t)
| ScriptFile (text : string).

Record world : Type := mk_world {
  tick : nat;                                  (* interactions so far *)
  event_log : list StructuredLogEvent.t;       (* records passed to log_event *)
  files : list (string * file_content);        (* files written, in order *)
  warnings : list string;                      (* logger.warning messages *)
}.

Definition initial_world : world :=
  {| tick := 0; event_log := []; files := []; warnings := [] |}.

Definition tick_world (w : world) : world :=
  {| tick := S (tick w); event_log := event_log w;
     files := files w; warnings := warnings w |}.

Definition log_world (event : StructuredLogEvent.t) (w : world) : world :=
  {| tick := tick w; event_log := (event_log w ++ [event])%list;
     files := files w; warnings := warnings w |}.

Definition warn_world (msg : string) (w : world) : world :=
  {| tick := tick w; event_log := event_log w;
     files := files w; warnings := (warnings w ++ [msg])%list |}.

Definition write_world (filename : string) (content : file_content) (w : world)
    : world :=
  {| tick := tick w; event_log := event_log w;
     files := (files w ++ [(filename, content)])%list;
     warnings := warnings w |}.

(** What the outside answers at each interaction. *)
Record Env : Type := mk_env {
  (* str(datetime.now()) *)
  datetime_now : nat → string;
  (* shutil.which("module") is not None *)
  which_module : bool;
  (* ResultsAggregatorSummary.completed_jobs after a refresh *)
  completed_jobs : nat → gset string;
  (* HpcManager.submit(output, name, run_script) *)
  mgr_submit : nat → string → string → string → option string * Status;
  (* HpcManager.check_status(job_id=...) *)
  mgr_check_status : nat → option string → HpcJobStatus.t;
}.

(** ** State, exceptions and fuel *)

Inductive outcome (A : Type) : Type :=
| Returned (a : A)
| Raised (e : exn)
| OutOfFuel.
Arguments Returned {A} a.
Arguments Raised {A} e.
Arguments OutOfFuel {A}.

Definition M (S A : Type) : Type := S → outcome A * S.

Definition ret {S A} (a : A) : M S A := λ s, (Returned a, s).

Definition bind {S A B} (m : M S A) (k : A → M S B) : M S B :=
  λ s, match m s with
       | (Returned a, s') => k a s'
       | (Raised e, s') => (Raised e, s')
       | (OutOfFuel, s') => (OutOfFuel, s')
       end.

Definition raise {S A} (e : exn) : M S A := λ s, (Raised e, s).
Definition out_of_fuel {S A} : M S A := λ s, (OutOfFuel, s).
Definition gets {S A} (f : S → A) : M S A := λ s, (Returned (f s), s).
Definition modify {S} (f : S → S) : M S unit := λ s, (Returned (), f s).

Definition lift_result {S A} (r : result A) : M S A :=
  match r with
  | Ok a => ret a
  | Raise e => raise e
  end.

#[global] Instance M_ret {S} : MRet (M S) := @ret S.
#[global] Instance M_bind {S} : MBind (M S) := λ A B k m, bind m k.

(** A world action inside a method whose state is receiver and world. *)
Definition liftW {S A} (m : M world A) : M (S * world) A :=
  λ sw, let '(o, w') := m sw.2 in (o, (sw.1, w')).

(** A method call [obj.m()]: the result together with the receiver after
    the call.  When the method raises, the caller no longer holds the
    receiver. *)
Definition call {S A} (obj : S) (m : M (S * world) A) : M world (A * S) :=
  λ w, match m (obj, w) with
       | (Returned a, (obj', w')) => (Returned (a, obj'), w')
       | (Raised e, (_, w')) => (Raised e, w')
       | (OutOfFuel, (_, w')) => (OutOfFuel, w')
       end.

Section World.
Context (env : Env).

Definition next_tick : M world nat :=
  λ w, (Returned (tick w), tick_world w).

(** [time.sleep(poll_interval)]: time passes. *)
Definition sleep : M world unit := next_tick;; mret ().

(** Modelled from the spec: [jade.loggers.log_event] is not among the
    sources; section 4.1 has it append one record to the event log. *)
Definition log_event (event : StructuredLogEvent.t) : M world unit :=
  modify (log_world event).

Definition logger_warning (msg : string) : M world unit :=
  modify (warn_world msg).

(** [dump_data] and [create_script]: one more file written. *)
Definition write_file (filename : string) (content : file_content) : M world unit :=
  modify (write_world filename content).

(** The constructor call [StructuredLogEvent(source=.., .., **kwargs)],
    reading the clock. *)
Definition new_event (source category name message : string)
    (kwargs : gmap string json) : M world StructuredLogEvent.t :=
  n ← next_tick;
  lift_result (StructuredLogEvent.new (datetime_now env n)
                 (JStr source) (JStr category) (JStr name) (JStr message) kwargs).

(** [ResultsAggregatorSummary.update_completed_jobs()] followed by reads
    of [completed_jobs]. *)
Definition update_completed_jobs : M world (gset string) :=
  n ← next_tick; mret (completed_jobs env n).

Definition submit_to_cluster (output name run_script : string)
    : M world (option string * Status) :=
  n ← next_tick; mret (mgr_submit env n output name run_script).

Definition check_status (job_id : option string) : M world HpcJobStatus.t :=
  n ← next_tick; mret (mgr_check_status env n job_id).

End World.

(** ** jade/hpc/hpc_submitter.py *)

Module _BatchJobs.

Record t : Type := mk {
  _jobs : list Job.t;
  _job_names : gset string;
}.

Definition __init__ : t := {| _jobs := []; _job_names := ∅ |}.

Definition append (self : t) (job : Job.t) : t :=
  {| _jobs := _jobs self ++ [job];
     _job_names := _job_names self ∪ {[Job.name job]} |}.

Definition are_blocking_jobs_present (self : t) (blocking_jobs : gset string) : bool :=
  bool_decide (blocking_jobs ⊆ _job_names self).

Definition is_job_blocked (self : t) (job : Job.t) (try_add_blocked_jobs : bool) : bool :=
  let blocking_jobs := Job.get_blocking_jobs job in
  if bool_decide (blocking_jobs = ∅) then false
  else if try_add_blocked_jobs && are_blocking_jobs_present self blocking_jobs then false
  else true.

Definition num_jobs (self : t) : nat := length (_jobs self).

(** The serialized form of a job is its record. *)
Definition serialize (self : t) : list Job.t := _jobs self.

End _BatchJobs.

Module AsyncHpcSubmitter.

(** The [_mgr] attribute is the cluster manager, reached through [Env]. *)
Record t : Type := mk {
  _run_script : string;
  _job_id : option string;
  _output : string;
  _name : string;
  _last_status : HpcJobStatus.t;
  _is_pending : bool;
}.

Definition __init__ (run_script name output : string) : t :=
  {| _run_script := run_script;
     _job_id := None;
     _output := output;
     _name := name;
     _last_status := HpcJobStatus.NONE;
     _is_pending := false |}.

Definition set_job_id (job_id : option string) (self : t) : t :=
  {| _run_script := _run_script self; _job_id := job_id;
     _output := _output self; _name := _name self;
     _last_status := _last_status self; _is_pending := _is_pending self |}.

Definition set_last_status (status : HpcJobStatus.t) (self : t) : t :=
  {| _run_script := _run_script self; _job_id := _job_id self;
     _output := _output self; _name := _name self;
     _last_status := status; _is_pending := _is_pending self |}.

Definition set_is_pending (b : bool) (self : t) : t :=
  {| _run_script := _run_script self; _job_id := _job_id self;
     _output := _output self; _name := _name self;
     _last_status := _last_status self; _is_pending := b |}.

(** A job id inside an event: [None] is JSON null. *)
Definition job_id_json (job_id : option string) : json :=
  match job_id with
  | Some s => JStr s
  | None => JNull
  end.

Section Methods.
Context (env : Env).

(** Attribute reads and writes on [self]. *)
Definition self_ : M (t * world) t := gets fst.
Definition assign (f : t → t) : M (t * world) unit :=
  modify (λ sw, (f sw.1, sw.2)).

Definition __del__ : M (t * world) unit :=
  self ← self_;
  if _is_pending self
  then liftW (logger_warning ("job " +:+ _name self +:+ " destructed while pending"))
  else mret ().

Definition is_complete : M (t * world) bool :=
  self ← self_;
  status ← liftW (check_status env (_job_id self));
  (if bool_decide (status ≠ _last_status self) then
     event ← liftW (new_event env (_name self) EVENT_CATEGORY_HPC
                      EVENT_NAME_HPC_JOB_STATE_CHANGE "HPC job state change"
                      (<["job_id" := job_id_json (_job_id self)]>
                       (<["old_state" := JStr (HpcJobStatus.value (_last_status self))]>
                       (<["new_state" := JStr (HpcJobStatus.value status)]> ∅))));
     liftW (log_event event);;
     assign (set_last_status status)
   else mret ());;
  (if bool_decide (status = HpcJobStatus.COMPLETE ∨ status = HpcJobStatus.NONE)
   then assign (set_is_pending false)
   else mret ());;
  self ← self_;
  mret (negb (_is_pending self)).

Definition run : M (t * world) unit :=
  self ← self_;
  '(job_id, result) ← liftW (submit_to_cluster env (_output self) (_name self)
                               (_run_script self));
  assign (set_is_pending true);;
  if bool_decide (result ≠ GOOD)
  then raise (ExecutionError "Failed to submit name={self._name}")
  else
    assign (set_job_id job_id);;
    self ← self_;
    event ← liftW (new_event env (_name self) EVENT_CATEGORY_HPC
                     EVENT_NAME_HPC_JOB_ASSIGNED "HPC job assigned"
                     (<["job_id" := job_id_json (_job_id self)]> ∅));
    liftW (log_event event).

Definition get_blocking_jobs : M (t * world) (gset string) := mret ∅.

(** [assert False] *)
Definition remove_blocking_job (name : string) : M (t * world) unit :=
  raise AssertionError.

End Methods.
End AsyncHpcSubmitter.

Module JobQueue.

(** Modelled from the spec: [jade.jobs.job_queue.JobQueue] is not among the
    sources.  Section 4.6: a pool of at most [queue_depth] submitters in
    flight; [submit] starts the batch (calls its [run]) and adds it when
    there is room; [process_queue] polls every batch in flight once and
    drops those whose [is_complete] returned true; [wait] polls until
    nothing is in flight.  What [submit] does with a batch when the pool is
    full is not said: it is the parameter [submit_when_full]. *)
Record t : Type := mk {
  _queue_depth : Z;
  in_flight : list AsyncHpcSubmitter.t;
}.

Definition __init__ (queue_depth : Z) : t :=
  {| _queue_depth := queue_depth; in_flight := [] |}.

Definition is_full (self : t) : bool :=
  bool_decide (_queue_depth self ≤ Z.of_nat (length (in_flight self)))%Z.

Section Methods.
Context (env : Env).
Context (submit_when_full : t → AsyncHpcSubmitter.t → M world t).

Definition submit (self : t) (async_batch : AsyncHpcSubmitter.t) : M world t :=
  if bool_decide (Z.of_nat (length (in_flight self)) < _queue_depth self)%Z
  then
    '(_, started) ← call async_batch (AsyncHpcSubmitter.run env);
    mret {| _queue_depth := _queue_depth self;
            in_flight := in_flight self ++ [started] |}
  else submit_when_full self async_batch.

Fixpoint poll_all (batches : list AsyncHpcSubmitter.t)
    : M world (list AsyncHpcSubmitter.t) :=
  match batches with
  | [] => mret []
  | b :: rest =>
      '(complete, b') ← call b (AsyncHpcSubmitter.is_complete env);
      rest' ← poll_all rest;
      mret (if complete : bool then rest' else b' :: rest')
  end.

Definition process_queue (self : t) : M world t :=
  remaining ← poll_all (in_flight self);
  mret {| _queue_depth := _queue_depth self; in_flight := remaining |}.

Fixpoint wait (fuel : nat) (self : t) : M world t :=
  match in_flight self with
  | [] => mret self
  | _ :: _ =>
      match fuel with
      | O => out_of_fuel
      | S fuel' =>
          self' ← process_queue self;
          sleep;;
          wait fuel' self'
      end
  end.

End Methods.
End JobQueue.

Module HpcSubmitter.

(** [_config] is the configuration's jobs in declaration order
    ([config.iter_jobs()]); [_base_config] and the results summary are
    reached through the files written and through [Env]. *)
Record t : Type := mk {
  _config : list Job.t;
  _config_file : string;
  _hpc_config_file : string;
  _name : string;
  _batch_index : nat;
}.

Definition __init__ (name : string) (config : list Job.t)
    (config_file hpc_config_file : string) : t :=
  {| _config := config;
     _config_file := config_file;
     _hpc_config_file := hpc_config_file;
     _name := name;
     _batch_index := 1 |}.

Definition newline : string := String (Ascii.ascii_of_nat 10) EmptyString.

(** The local variables of one packing round: the [for] loop of [run]. *)
Record packing : Type := mk_packing {
  batch : _BatchJobs.t;
  jobs_to_pop : list nat;
  num_blocked : nat;
}.

Definition packing_start : packing :=
  {| batch := _BatchJobs.__init__; jobs_to_pop := []; num_blocked := 0 |}.

(** [for i, job in enumerate(jobs): ...] from index [i] on.  The boolean
    tells whether the loop was left through [break]. *)
Fixpoint pack_from (try_add_blocked_jobs : bool) (per_node_batch_size : Z)
    (i : nat) (jobs : list Job.t) (p : packing) : packing * bool :=
  match jobs with
  | [] => (p, false)
  | job :: rest =>
      if _BatchJobs.is_job_blocked (batch p) job try_add_blocked_jobs then
        pack_from try_add_blocked_jobs per_node_batch_size (S i) rest
          {| batch := batch p;
             jobs_to_pop := jobs_to_pop p;
             num_blocked := num_blocked p + 1 |}
      else
        let p' := {| batch := _BatchJobs.append (batch p) job;
                     jobs_to_pop := jobs_to_pop p ++ [i];
                     num_blocked := num_blocked p |} in
        if bool_decide (per_node_batch_size ≤ Z.of_nat (_BatchJobs.num_jobs (batch p')))%Z
        then (p', true)
        else pack_from try_add_blocked_jobs per_node_batch_size (S i) rest p'
  end.

Definition pack (try_add_blocked_jobs : bool) (per_node_batch_size : Z)
    (jobs : list Job.t) : packing * bool :=
  pack_from try_add_blocked_jobs per_node_batch_size 0 jobs packing_start.

(** The two updates of the loop body, named for the proofs: the job is
    counted as blocked, or it is admitted at index [i]. *)
Definition blocked_step (p : packing) : packing :=
  {| batch := batch p; jobs_to_pop := jobs_to_pop p;
     num_blocked := num_blocked p + 1 |}.



(** [jobs.pop(i)] for an index [i] that is not negative. *)
Definition list_pop {A} (i : nat) (l : list A) : result (list A) :=
  if bool_decide (i < length l) then Ok (delete i l) else Raise IndexError.

(** [for i in indices: jobs.pop(i)] *)
Fixpoint pop_each {A} (indices : list nat) (l : list A) : result (list A) :=
  match indices with
  | [] => Ok l
  | i :: rest => result_bind (list_pop i l) (pop_each rest)
  end.

(** The effect of [_update_completed_jobs] on one job. *)
Definition remove_done (completed : gset string) (job : Job.t) : Job.t :=
  let done_jobs :=
    filter (λ x, x ∈ completed) (elements (Job.get_blocking_jobs job)) in
  foldl Job.remove_blocking_job job done_jobs.

(** The variables of [run] that live across iterations of [while jobs]. *)
Record loop_vars : Type := mk_vars {
  v_self : t;
  v_queue : JobQueue.t;
  v_jobs : list Job.t;
}.

Section Methods.
Context (env : Env).
Context (submit_when_full : JobQueue.t → AsyncHpcSubmitter.t → M world JobQueue.t).

Definition _create_run_script (config_file filename : string)
    (num_processes : option Z) (output : string) (verbose : bool) : M world unit :=
  let text := (["#!/bin/bash"] ++
    (if which_module env then ["module load conda"; "conda activate jade"] else []))%list in
  let command := "jade-internal run-jobs " +:+ config_file +:+ " "
                 +:+ "--output=" +:+ output in
  let command := match num_processes with
                 | Some n => command +:+ " --num-processes=" +:+ pretty n
                 | None => command
                 end in
  let command := if verbose then command +:+ " --verbose" else command in
  write_file filename (ScriptFile (String.concat newline (text ++ [command])%list)).

Definition _make_async_submitter (self : t) (jobs : list Job.t)
    (num_processes : option Z) (output : string) (verbose : bool)
    : M world (t * AsyncHpcSubmitter.t) :=
  let suffix := "_batch_" +:+ pretty (_batch_index self) in
  let self' := {| _config := _config self;
                  _config_file := _config_file self;
                  _hpc_config_file := _hpc_config_file self;
                  _name := _name self;
                  _batch_index := _batch_index self + 1 |} in
  let new_config_file :=
    str_replace ".json" (suffix +:+ ".json") (_config_file self) in
  write_file new_config_file (ConfigFile jobs);;
  let run_script := os_path_join output ("run" +:+ suffix +:+ ".sh") in
  _create_run_script new_config_file run_script num_processes output verbose;;
  let name := _name self +:+ suffix in
  mret (self', AsyncHpcSubmitter.__init__ run_script name output).

Definition _update_completed_jobs (jobs : list Job.t) : M world (list Job.t) :=
  completed ← update_completed_jobs env;
  mret (remove_done completed <$> jobs).

(** One iteration of [while jobs:]. *)
Definition loop_body (output : string) (per_node_batch_size : Z)
    (num_processes : option Z) (try_add_blocked_jobs verbose : bool)
    (v : loop_vars) : M world loop_vars :=
  jobs ← _update_completed_jobs (v_jobs v);
  let p := (pack try_add_blocked_jobs per_node_batch_size jobs).1 in
  v ← (if bool_decide (0 < _BatchJobs.num_jobs (batch p)) then
         '(self, async_submitter) ←
            _make_async_submitter (v_self v) (_BatchJobs.serialize (batch p))
              num_processes output verbose;
         queue ← JobQueue.submit env submit_when_full (v_queue v) async_submitter;
         event ← new_event env (_name self) EVENT_CATEGORY_HPC
                   EVENT_NAME_HPC_SUBMIT "Submitted HPC batch"
                   (<["batch_size" := JInt (Z.of_nat (_BatchJobs.num_jobs (batch p)))]>
                    (<["num_blocked" := JInt (Z.of_nat (num_blocked p))]>
                    (<["per_node_batch_size" := JInt per_node_batch_size]> ∅)));
         log_event event;;
         jobs ← lift_result (pop_each (reverse (jobs_to_pop p)) jobs);
         mret {| v_self := self; v_queue := queue; v_jobs := jobs |}
       else
         mret {| v_self := v_self v; v_queue := v_queue v; v_jobs := jobs |});
  if bool_decide (0 < _BatchJobs.num_jobs (batch p)) && negb (JobQueue.is_full (v_queue v))
  then mret v
  else
    queue ← JobQueue.process_queue env (v_queue v);
    sleep;;
    mret {| v_self := v_self v; v_queue := queue; v_jobs := v_jobs v |}.

Fixpoint while_jobs (fuel : nat) (output : string) (per_node_batch_size : Z)
    (num_processes : option Z) (try_add_blocked_jobs verbose : bool)
    (v : loop_vars) : M world loop_vars :=
  match v_jobs v with
  | [] => mret v
  | _ :: _ =>
      match fuel with
      | O => out_of_fuel
      | S fuel' =>
          v' ← loop_body output per_node_batch_size num_processes
                 try_add_blocked_jobs verbose v;
          while_jobs fuel' output per_node_batch_size num_processes
            try_add_blocked_jobs verbose v'
      end
  end.

(** [run(self, output, queue_depth, per_node_batch_size, num_processes,
    poll_interval, try_add_blocked_jobs, verbose)].  The poll interval only
    sets how long [sleep] lasts.  The method returns nothing; the model
    returns the final values of its variables. *)
Definition run (fuel : nat) (self : t) (output : string) (queue_depth : Z)
    (per_node_batch_size : Z) (num_processes : option Z)
    (try_add_blocked_jobs verbose : bool) : M world loop_vars :=
  let queue := JobQueue.__init__ queue_depth in
  let jobs := _config self in
  v ← while_jobs fuel output per_node_batch_size num_processes
        try_add_blocked_jobs verbose
        {| v_self := self; v_queue := queue; v_jobs := jobs |};
  queue ← JobQueue.wait env fuel (v_queue v);
  mret {| v_self := v_self v; v_queue := queue; v_jobs := v_jobs v |}.

End Methods.
End HpcSubmitter.

(** ** Vocabulary of the statements *)

(** The three events of the HPC category, as the constructor builds them
    from the arguments the submitters pass. *)
Definition assigned_event (now name : string) (job_id : option string)
    : StructuredLogEvent.t :=
  StructuredLogEvent.__init__ now (JStr name) (JStr EVENT_CATEGORY_HPC)
    (JStr EVENT_NAME_HPC_JOB_ASSIGNED) (JStr "HPC job assigned")
    (<["job_id" := AsyncHpcSubmitter.job_id_json job_id]> ∅).

Definition state_change_event (now name : string) (job_id : option string)
    (old_state new_state : HpcJobStatus.t) : StructuredLogEvent.t :=
  StructuredLogEvent.__init__ now (JStr name) (JStr EVENT_CATEGORY_HPC)
    (JStr EVENT_NAME_HPC_JOB_STATE_CHANGE) (JStr "HPC job state change")
    (<["job_id" := AsyncHpcSubmitter.job_id_json job_id]>
     (<["old_state" := JStr (HpcJobStatus.value old_state)]>
     (<["new_state" := JStr (HpcJobStatus.value new_state)]> ∅))).


Definition new_state (e : StructuredLogEvent.t) : option json :=
  StructuredLogEvent.data e !! "new_state".

Definition old_state (e : StructuredLogEvent.t) : option json :=
  StructuredLogEvent.data e !! "old_state".



(** The jobs that entered a batch so far: the job lists of the split
    configuration files written, in the order they were written. *)
Definition config_jobs (file : string * file_content) : list Job.t :=
  match file.2 with
  | ConfigFile jobs => jobs
  | ScriptFile _ => []
  end.

Definition batched (w : world) : list Job.t :=
  concat (config_jobs <$> files w).

(** An action that writes no file and whose result, when it returns,
    satisfies [Q]. *)
Definition keeps_files {A} (m : M world A) (Q : A → Prop) : Prop :=
  ∀ w, files (m w).2 = files w ∧ ∀ a, (m w).1 = Returned a → Q a.

(** No job of the list can become ready: each waits for a job that never
    shows among the completed results. *)
Definition never_ready (env : Env) (jobs : list Job.t) : Prop :=
  Forall (λ job, ∃ blocker, blocker ∈ Job.blocked_by job
                            ∧ ∀ n, blocker ∉ completed_jobs env n) jobs.

(** ** Scenarios *)

(** A cluster that accepts every submission under job id 123 and reports
    the job complete at once; nothing ever shows as a completed result. *)
Definition good_cluster : Env :=
  {| datetime_now := λ n, "2020-01-01 00:00:0" +:+ pretty n;
     which_module := false;
     completed_jobs := λ _, ∅;
     mgr_submit := λ _ _ _ _, (Some "123", GOOD);
     mgr_check_status := λ _ _, HpcJobStatus.COMPLETE |}.

(** A cluster that refuses every submission. *)
Definition failing_cluster : Env :=
  {| datetime_now := λ n, "2020-01-01 00:00:0" +:+ pretty n;
     which_module := false;
     completed_jobs := λ _, ∅;
     mgr_submit := λ _ _ _ _, (None, ERROR);
     mgr_check_status := λ _ _, HpcJobStatus.NONE |}.


Definition scenario_batch : AsyncHpcSubmitter.t :=
  AsyncHpcSubmitter.__init__ "out/run_batch_1.sh" "sub_batch_1" "out".


(** A dependency cycle: [A] waits for [B] and [B] waits for [A]. *)
Definition scenario_cycle : list Job.t :=
  [Job.mk "A" "run a" {["B"]}; Job.mk "B" "run b" {["A"]}].
Definition cycle_submitter : HpcSubmitter.t :=
  HpcSubmitter.__init__ "sub" scenario_cycle "config.json" "hpc_config.toml".

(** A queue that leaves a batch aside when it is full. *)
Definition drop_when_full (queue : JobQueue.t) (async_batch : AsyncHpcSubmitter.t)
    : M world JobQueue.t :=
  mret queue.

(** Two independent jobs and a submitter for them. *)
Definition scenario_job_1 : Job.t := Job.mk "job1" "run 1" ∅.
Definition scenario_job_2 : Job.t := Job.mk "job2" "run 2" ∅.
Definition scenario_submitter : HpcSubmitter.t :=
  HpcSubmitter.__init__ "sub" [scenario_job_1; scenario_job_2]
    "config.json" "hpc_config.toml".

(** * Properties *)

Local Open Scope list_scope.
Set Warnings "-clear-no-such-hyp".

(** ** The packing round *)

Section Packing.
Import HpcSubmitter.

Lemma is_job_blocked_false (b : _BatchJobs.t) (job : Job.t) (try_add : bool) :
  _BatchJobs.is_job_blocked b job try_add = false ↔
  Job.blocked_by job = ∅ ∨
  (try_add = true ∧ Job.blocked_by job ⊆ _BatchJobs._job_names b).
Proof.
  unfold _BatchJobs.is_job_blocked, _BatchJobs.are_blocking_jobs_present,
    Job.get_blocking_jobs.
  case_bool_decide as Hempty; [naive_solver|].
  destruct try_add; simpl; [|naive_solver].
  case_bool_decide; naive_solver.
Qed.

Lemma remove_blocking_jobs_foldl (job : Job.t) (names : list string) :
  Job.blocked_by (foldl Job.remove_blocking_job job names)
  = Job.blocked_by job ∖ list_to_set names
  ∧ Job.name (foldl Job.remove_blocking_job job names) = Job.name job.
Proof.
  revert job. induction names as [|n names IH]; intros job; simpl.
  - split; [set_solver|done].
  - destruct (IH (Job.remove_blocking_job job n)) as [-> ->]. simpl.
    split; [set_solver|done].
Qed.

Lemma remove_done_blocked_by (completed : gset string) (job : Job.t) :
  Job.blocked_by (remove_done completed job) = Job.blocked_by job ∖ completed.
Proof.
  unfold remove_done, Job.get_blocking_jobs.
  rewrite (proj1 (remove_blocking_jobs_foldl _ _)).
  apply set_eq. intros x.
  rewrite !elem_of_difference, elem_of_list_to_set, list_elem_of_filter,
    elem_of_elements.
  naive_solver.
Qed.

Lemma remove_done_name (completed : gset string) (job : Job.t) :
  Job.name (remove_done completed job) = Job.name job.
Proof. unfold remove_done. apply remove_blocking_jobs_foldl. Qed.




Lemma pop_each_snoc {A} (pops : list nat) (pre : list A) (x : A) (rest out : list A) :
  pop_each (reverse pops) (pre ++ rest) = Ok out →
  pop_each (reverse (pops ++ [length pre])) (pre ++ x :: rest) = Ok out.
Proof.
  intros Hpops. rewrite reverse_app. simpl. unfold list_pop.
  rewrite bool_decide_eq_true_2 by (rewrite length_app; simpl; lia).
  simpl. by rewrite delete_middle.
Qed.

(** What a run of the loop keeps true.  [pre] are the jobs already
    visited, [rem] those of them that were not admitted. *)
Lemma pack_from_inv try_add bsize (l pre : list Job.t) (p : packing) (rem : list Job.t) :
  (∀ suffix, pop_each (reverse (jobs_to_pop p)) (pre ++ suffix) = Ok (rem ++ suffix)) →
  pre ≡ₚ _BatchJobs._jobs (batch p) ++ rem →
  rem `sublist_of` pre →
  Forall2 (λ k j, pre !! k = Some j) (jobs_to_pop p) (_BatchJobs._jobs (batch p)) →
  _BatchJobs._job_names (batch p)
    = list_to_set (Job.name <$> _BatchJobs._jobs (batch p)) →
  (_BatchJobs.num_jobs (batch p) = 0
   ∨ (Z.of_nat (_BatchJobs.num_jobs (batch p)) < bsize)%Z) →
  let r := (pack_from try_add bsize (length pre) l p).1 in
  ∃ rem',
    pop_each (reverse (jobs_to_pop r)) (pre ++ l) = Ok rem'
    ∧ pre ++ l ≡ₚ _BatchJobs._jobs (batch r) ++ rem'
    ∧ rem' `sublist_of` pre ++ l
    ∧ Forall2 (λ k j, (pre ++ l) !! k = Some j)
        (jobs_to_pop r) (_BatchJobs._jobs (batch r))
    ∧ _BatchJobs._job_names (batch r)
        = list_to_set (Job.name <$> _BatchJobs._jobs (batch r))
    ∧ (Z.of_nat (_BatchJobs.num_jobs (batch r)) ≤ Z.max 1 bsize)%Z.
Proof.
  revert pre p rem.
  induction l as [|job l IH]; intros pre p rem Hpop Hperm Hsub Hat Hnames Hsize; simpl.
  - exists rem. specialize (Hpop []). rewrite !app_nil_r in *.
    repeat split; try done. lia.
  - assert (Hat' : Forall2 (λ k j, (pre ++ [job]) !! k = Some j)
                     (jobs_to_pop p ++ [length pre])
                     (_BatchJobs._jobs (batch p) ++ [job])).
    { apply Forall2_app.
      - eapply Forall2_impl; [exact Hat|]. intros k j Hk. simpl in Hk.
        by apply lookup_app_l_Some.
      - constructor; [|constructor]. by rewrite list_lookup_middle. }
    assert (Hlen : length (pre ++ [job]) = S (length pre))
      by (rewrite length_app; simpl; lia).
    assert (Happ : (pre ++ [job]) ++ l = pre ++ job :: l)
      by (by rewrite <- app_assoc).
    destruct (_BatchJobs.is_job_blocked (batch p) job try_add).
    + (* blocked: the job stays *)
      pose (p' := {| batch := batch p; jobs_to_pop := jobs_to_pop p;
                     num_blocked := num_blocked p + 1 |}).
      destruct (IH (pre ++ [job]) p' (rem ++ [job])) as (rem' & H1 & H2 & H3 & H4 & H5 & H6).
      * intros suffix. rewrite <- !app_assoc. simpl. apply Hpop.
      * simpl. rewrite Hperm. by rewrite app_assoc.
      * by apply sublist_app.
      * simpl. eapply Forall2_impl; [exact Hat|]. intros k j Hk. simpl in Hk.
        by apply lookup_app_l_Some.
      * done.
      * done.
      * rewrite ?Hlen, ?Happ in *. exists rem'. done.
    + pose (p' := {| batch := _BatchJobs.append (batch p) job;
                     jobs_to_pop := jobs_to_pop p ++ [length pre];
                     num_blocked := num_blocked p |}).
      assert (Hpop' : ∀ suffix,
                 pop_each (reverse (jobs_to_pop p')) ((pre ++ [job]) ++ suffix)
                 = Ok (rem ++ suffix)).
      { intros suffix. rewrite <- app_assoc. simpl. by apply pop_each_snoc. }
      assert (Hperm' : pre ++ [job] ≡ₚ _BatchJobs._jobs (batch p') ++ rem).
      { simpl. rewrite Hperm. rewrite <- !app_assoc.
        apply Permutation_app_head, Permutation_app_comm. }
      assert (Hnames' : _BatchJobs._job_names (batch p')
                = list_to_set (Job.name <$> _BatchJobs._jobs (batch p'))).
      { simpl. rewrite Hnames, fmap_app. simpl. set_solver. }
      case_bool_decide as Hfull; simpl.
      * (* admitted, batch full: break *)
        exists (rem ++ l). split; [|split; [|split; [|split; [|split]]]].
        -- specialize (Hpop' l). by rewrite <- app_assoc in Hpop'.
        -- rewrite <- Happ, Hperm'. simpl. by rewrite <- !app_assoc.
        -- apply sublist_app; [done|]. by apply sublist_cons.
        -- eapply Forall2_impl; [exact Hat'|]. intros k j Hk. simpl in Hk.
           rewrite (cons_middle job pre l), app_assoc.
           by apply lookup_app_l_Some.
        -- exact Hnames'.
        -- unfold _BatchJobs.num_jobs in *. simpl in *.
           rewrite length_app in *. simpl in *. lia.
      * destruct (IH (pre ++ [job]) p' rem) as (rem' & H1 & H2 & H3 & H4 & H5 & H6);
          try done.
        -- by apply sublist_inserts_r.
        -- right. unfold _BatchJobs.num_jobs in *. simpl in *. lia.
        -- rewrite ?Hlen, ?Happ in *. exists rem'. done.
Qed.

(** The invariant at the end of a whole round. *)
Lemma pack_inv try_add bsize (jobs : list Job.t) :
  let r := (pack try_add bsize jobs).1 in
  ∃ rem,
    pop_each (reverse (jobs_to_pop r)) jobs = Ok rem
    ∧ jobs ≡ₚ _BatchJobs._jobs (batch r) ++ rem
    ∧ rem `sublist_of` jobs
    ∧ Forall2 (λ k j, jobs !! k = Some j)
        (jobs_to_pop r) (_BatchJobs._jobs (batch r))
    ∧ _BatchJobs._job_names (batch r)
        = list_to_set (Job.name <$> _BatchJobs._jobs (batch r))
    ∧ (Z.of_nat (_BatchJobs.num_jobs (batch r)) ≤ Z.max 1 bsize)%Z.
Proof.
  apply (pack_from_inv try_add bsize jobs [] packing_start []); simpl; try done.
  by left.
Qed.

Lemma pack_from_blocked try_add bsize i job l p :
  _BatchJobs.is_job_blocked (batch p) job try_add = true →
  pack_from try_add bsize i (job :: l) p
  = pack_from try_add bsize (S i) l (blocked_step p).
Proof. intros H. simpl. by rewrite H. Qed.









(** C4 (as the code has it).  A packing round selects at most
    [max 1 per_node_batch_size] jobs: the size is tested after each
    admission, so a bound of one or more is never exceeded, and with a
    bound of zero or less the first admissible job is still taken. *)
Theorem pack_size_bound (try_add : bool) (bsize : Z) (jobs : list Job.t) :
  (Z.of_nat (_BatchJobs.num_jobs (batch (pack try_add bsize jobs).1))
   ≤ Z.max 1 bsize)%Z.
Proof.
  destruct (pack_inv try_add bsize jobs) as (rem & _ & _ & _ & _ & _ & H).
  exact H.
Qed.

(** C4 fails as stated: with [per_node_batch_size = 0] and one job that
    nothing blocks, the batch holds one job. *)
Lemma pack_size_zero_counterexample :
  ¬ (Z.of_nat (_BatchJobs.num_jobs
        (batch (pack false 0 [Job.mk "1" "echo hello world" ∅]).1)) ≤ 0)%Z.
Proof. vm_compute. intros H. by apply H. Qed.

End Packing.

(** ** The per-batch submitter *)

Ltac free_kwargs :=
  unfold StructuredLogEvent.parameters;
  repeat constructor; by rewrite ?lookup_insert_ne, ?lookup_empty by done.

Ltac run_monad :=
  cbv [AsyncHpcSubmitter.self_ AsyncHpcSubmitter.assign liftW call
       submit_to_cluster check_status new_event
       log_event logger_warning write_file next_tick sleep update_completed_jobs
       mbind M_bind bind mret M_ret ret gets modify raise lift_result fst snd].

Section Submitter.
Import AsyncHpcSubmitter.
Context (env : Env).

Lemma new_ok now source category name message kwargs :
  Forall (λ p, kwargs !! p = None) StructuredLogEvent.parameters →
  StructuredLogEvent.new now source category name message kwargs
  = Ok (StructuredLogEvent.__init__ now source category name message kwargs).
Proof.
  intros Hfree. unfold StructuredLogEvent.new.
  rewrite bool_decide_eq_false_2; [done|].
  rewrite Exists_exists. intros (p & Hp & Hsome).
  rewrite Forall_forall in Hfree. rewrite (Hfree p Hp) in Hsome.
  by destruct Hsome.
Qed.

(** The two ways [run] ends. *)
Lemma run_failed (self : t) (w : world) :
  (mgr_submit env (tick w) (_output self) (_name self) (_run_script self)).2 ≠ GOOD →
  run env (self, w)
  = (Raised (ExecutionError "Failed to submit name={self._name}"),
     (set_is_pending true self, tick_world w)).
Proof.
  intros Hbad. unfold run. run_monad.
  destruct (mgr_submit env _ _ _ _) as [job_id result]. simpl in Hbad.
  by rewrite bool_decide_eq_true_2.
Qed.

Lemma run_good (self : t) (w : world) :
  (mgr_submit env (tick w) (_output self) (_name self) (_run_script self)).2 = GOOD →
  run env (self, w)
  = (Returned (),
     (set_job_id (mgr_submit env (tick w) (_output self) (_name self)
                    (_run_script self)).1
        (set_is_pending true self),
      log_world
        (assigned_event (datetime_now env (S (tick w))) (_name self)
           (mgr_submit env (tick w) (_output self) (_name self)
              (_run_script self)).1)
        (tick_world (tick_world w)))).
Proof.
  intros Hgood. unfold run. run_monad.
  destruct (mgr_submit env _ _ _ _) as [job_id result]. simpl in Hgood.
  rewrite bool_decide_eq_false_2 by (intros H; by apply H).
  rewrite new_ok by free_kwargs. done.
Qed.

(** C5.  [run] raises [ExecutionError] exactly when the cluster manager's
    submit returns a status other than GOOD.  On GOOD it returns, records
    the job id returned by submit and appends exactly one event to the log,
    an [hpc_job_assigned] of the HPC category under the batch's name whose
    data is that job id.  On another status the log is unchanged. *)
Theorem run_raises_iff_not_good (self : t) (w : world) :
  let submitted :=
    mgr_submit env (tick w) (_output self) (_name self) (_run_script self) in
  let r := run env (self, w) in
  ((∃ msg, r.1 = Raised (ExecutionError msg)) ↔ submitted.2 ≠ GOOD)
  ∧ (if decide (submitted.2 = GOOD) then
       r.1 = Returned ()
       ∧ _job_id r.2.1 = submitted.1
       ∧ ∃ event,
           event_log r.2.2 = event_log w ++ [event]
           ∧ StructuredLogEvent.name event = JStr EVENT_NAME_HPC_JOB_ASSIGNED
           ∧ StructuredLogEvent.category event = JStr EVENT_CATEGORY_HPC
           ∧ StructuredLogEvent.source event = JStr (_name self)
           ∧ StructuredLogEvent.data event = {["job_id" := job_id_json submitted.1]}
     else event_log r.2.2 = event_log w).
Proof.
  intros submitted r. unfold r.
  destruct (decide (submitted.2 = GOOD)) as [Hgood|Hbad].
  - rewrite (run_good _ _ Hgood). simpl. split.
    + split; [intros [msg Hmsg]; discriminate|]. intros Hne. by destruct Hne.
    + split; [done|]. split; [done|].
      eexists. split; [reflexivity|]. repeat split.
  - rewrite (run_failed _ _ Hbad). simpl. split; [|done].
    split; [done|]. intros _. by eexists.
Qed.

(** C10.  When submit returns a status other than GOOD, [run] on a new
    submitter raises [ExecutionError] with the pending flag already set
    and the job id still [None]; the destructor of that submitter then
    logs the warning that it was destructed while pending. *)
Theorem failed_submit_leaves_pending (run_script name output : string) (w : world) :
  (mgr_submit env (tick w) output name run_script).2 ≠ GOOD →
  let r := run env (__init__ run_script name output, w) in
  (∃ msg, r.1 = Raised (ExecutionError msg))
  ∧ _is_pending r.2.1 = true
  ∧ _job_id r.2.1 = None
  ∧ __del__ r.2
    = (Returned (),
       (r.2.1, warn_world ("job " +:+ name +:+ " destructed while pending") r.2.2)).
Proof.
  intros Hbad r. unfold r.
  rewrite (run_failed (__init__ run_script name output) w Hbad). simpl.
  split; [by eexists|]. split; [done|]. split; [done|].
  reflexivity.
Qed.

(** What one call of [is_complete] does. *)
Lemma is_complete_eq (self : t) (w : world) :
  let status := mgr_check_status env (tick w) (_job_id self) in
  let changed := bool_decide (status ≠ _last_status self) in
  let self1 := if changed then set_last_status status self else self in
  let w1 :=
    if changed
    then log_world
           (state_change_event (datetime_now env (S (tick w))) (_name self)
              (_job_id self) (_last_status self) status)
           (tick_world (tick_world w))
    else tick_world w in
  let self2 :=
    if bool_decide (status = HpcJobStatus.COMPLETE ∨ status = HpcJobStatus.NONE)
    then set_is_pending false self1 else self1 in
  is_complete env (self, w) = (Returned (negb (_is_pending self2)), (self2, w1)).
Proof.
  intros status changed self1 w1 self2.
  unfold is_complete. run_monad. fold status.
  unfold self2, self1, w1, changed.
  case_bool_decide as Hchanged.
  - rewrite new_ok by free_kwargs. by case_bool_decide.
  - by case_bool_decide.
Qed.






(** C9 (as the code has it).  [get_blocking_jobs] returns the empty set and
    changes nothing; [remove_blocking_job] never returns: for every
    argument it fails its assertion, and changes nothing. *)
Theorem batch_blocking_jobs (self : t) (w : world) (name : string) :
  get_blocking_jobs (self, w) = (Returned ∅, (self, w))
  ∧ remove_blocking_job name (self, w) = (Raised AssertionError, (self, w)).
Proof. by split. Qed.

(** C9 fails as stated: [remove_blocking_job] does not return without
    error. *)
Lemma remove_blocking_job_counterexample :
  ¬ ∃ r, (remove_blocking_job "A" (scenario_batch, initial_world)).1 = Returned r.
Proof. intros [r Hr]. discriminate. Qed.

End Submitter.

Lemma failed_submit_leaves_pending_witness :
  (mgr_submit failing_cluster (tick initial_world) "out" "sub_batch_1"
     "out/run_batch_1.sh").2 ≠ GOOD
  ∧ AsyncHpcSubmitter._is_pending
      (AsyncHpcSubmitter.run failing_cluster (scenario_batch, initial_world)).2.1
    = true.
Proof.
  split; [discriminate|].
  apply (failed_submit_leaves_pending failing_cluster
           "out/run_batch_1.sh" "sub_batch_1" "out" initial_world).
  discriminate.
Defined.

(** ** Event records *)

Section Events.
Import StructuredLogEvent.





End Events.

(** ** The run of the submitter *)

Section Run.
Import HpcSubmitter.
Context (env : Env).
Context (submit_when_full : JobQueue.t → AsyncHpcSubmitter.t → M world JobQueue.t).

Lemma bind_returned {A B} (m : M world A) (k : A → M world B) w a w1 :
  m w = (Returned a, w1) → (m ≫= k) w = k a w1.
Proof. intros Hm. unfold mbind, M_bind, bind. by rewrite Hm. Qed.

Lemma bind_raised {A B} (m : M world A) (k : A → M world B) w e w1 :
  m w = (Raised e, w1) → (m ≫= k) w = (Raised e, w1).
Proof. intros Hm. unfold mbind, M_bind, bind. by rewrite Hm. Qed.

Lemma bind_out_of_fuel {A B} (m : M world A) (k : A → M world B) w w1 :
  m w = (OutOfFuel, w1) → (m ≫= k) w = (OutOfFuel, w1).
Proof. intros Hm. unfold mbind, M_bind, bind. by rewrite Hm. Qed.




Lemma bind_assoc {A B C} (m : M world A) (k : A → M world B)
    (t : B → M world C) w :
  ((m ≫= k) ≫= t) w = (m ≫= λ a, k a ≫= t) w.
Proof. unfold mbind, M_bind, bind. by destruct (m w) as [[a|e|] w1]. Qed.

Lemma keeps_ret {A} (a : A) (Q : A → Prop) : Q a → keeps_files (mret a) Q.
Proof. intros Ha w. split; [done|]. by intros ? [= <-]. Qed.

Lemma keeps_bind {A B} (m : M world A) (k : A → M world B)
    (Q : A → Prop) (R : B → Prop) :
  keeps_files m Q → (∀ a, Q a → keeps_files (k a) R) → keeps_files (m ≫= k) R.
Proof.
  intros Hm Hk w. destruct (Hm w) as [Hfiles Hq].
  destruct (m w) as [[a|e|] w1] eqn:Hmw; simpl in *.
  - rewrite (bind_returned _ _ _ _ _ Hmw).
    destruct (Hk a (Hq a eq_refl) w1) as [Hfiles' Hr].
    split; [congruence|done].
  - rewrite (bind_raised _ _ _ _ _ Hmw). simpl. split; [done|]. intros; discriminate.
  - rewrite (bind_out_of_fuel _ _ _ _ Hmw). simpl. split; [done|]. intros; discriminate.
Qed.

Lemma keeps_weaken {A} (m : M world A) (Q R : A → Prop) :
  keeps_files m Q → (∀ a, Q a → R a) → keeps_files m R.
Proof.
  intros Hm Hqr w. destruct (Hm w) as [Hfiles Hq]. split; [done|]. eauto.
Qed.

Lemma sleep_keeps : keeps_files sleep (λ _, True).
Proof. by intros w. Qed.

Lemma log_event_keeps event : keeps_files (log_event event) (λ _, True).
Proof. by intros w. Qed.

Lemma new_event_keeps source category name message kwargs :
  keeps_files (new_event env source category name message kwargs) (λ _, True).
Proof.
  intros w. unfold new_event. run_monad.
  by destruct (StructuredLogEvent.new _ _ _ _ _ _).
Qed.

Lemma lift_result_keeps {A} (r : result A) :
  keeps_files (lift_result r) (λ a, r = Ok a).
Proof. intros w. destruct r; simpl; split; try done. by intros ? [= <-]. Qed.

Lemma call_run_keeps (b : AsyncHpcSubmitter.t) :
  keeps_files (call b (AsyncHpcSubmitter.run env)) (λ _, True).
Proof.
  intros w. unfold call.
  destruct (decide ((mgr_submit env (tick w) (AsyncHpcSubmitter._output b)
                       (AsyncHpcSubmitter._name b)
                       (AsyncHpcSubmitter._run_script b)).2 = GOOD)) as [Hgood|Hbad].
  - by rewrite (run_good env b w Hgood).
  - by rewrite (run_failed env b w Hbad).
Qed.

Lemma call_is_complete_keeps (b : AsyncHpcSubmitter.t) :
  keeps_files (call b (AsyncHpcSubmitter.is_complete env)) (λ _, True).
Proof.
  intros w. unfold call. rewrite (is_complete_eq env b w). simpl.
  split; [|done]. by case_bool_decide.
Qed.

Lemma poll_all_keeps (batches : list AsyncHpcSubmitter.t) :
  keeps_files (JobQueue.poll_all env batches) (λ _, True).
Proof.
  induction batches as [|b rest IH]; simpl.
  - by apply keeps_ret.
  - eapply keeps_bind; [apply call_is_complete_keeps|].
    intros [complete b'] _.
    eapply keeps_bind; [apply IH|]. intros rest' _. by apply keeps_ret.
Qed.

Lemma process_queue_keeps (queue : JobQueue.t) :
  keeps_files (JobQueue.process_queue env queue) (λ _, True).
Proof.
  unfold JobQueue.process_queue.
  eapply keeps_bind; [apply poll_all_keeps|]. intros remaining _.
  by apply keeps_ret.
Qed.

Lemma wait_keeps (fuel : nat) (queue : JobQueue.t) :
  keeps_files (JobQueue.wait env fuel queue) (λ _, True).
Proof.
  revert queue. induction fuel as [|fuel IH]; intros queue; simpl.
  - destruct (JobQueue.in_flight queue); [by apply keeps_ret|].
    intros w. split; [done|]. intros; discriminate.
  - destruct (JobQueue.in_flight queue); [by apply keeps_ret|].
    eapply keeps_bind; [apply process_queue_keeps|]. intros queue' _.
    eapply keeps_bind; [apply sleep_keeps|]. intros _ _. apply IH.
Qed.

Hypothesis submit_when_full_keeps :
  ∀ queue async_batch, keeps_files (submit_when_full queue async_batch) (λ _, True).

Lemma submit_keeps (queue : JobQueue.t) (async_batch : AsyncHpcSubmitter.t) :
  keeps_files (JobQueue.submit env submit_when_full queue async_batch) (λ _, True).
Proof.
  unfold JobQueue.submit. case_bool_decide; [|apply submit_when_full_keeps].
  eapply keeps_bind; [apply call_run_keeps|].
  intros [u started] _. by apply keeps_ret.
Qed.

Lemma update_completed_eq (jobs : list Job.t) (w : world) :
  _update_completed_jobs env jobs w
  = (Returned (remove_done (completed_jobs env (tick w)) <$> jobs), tick_world w).
Proof. reflexivity. Qed.

Lemma batched_write (filename : string) (content : file_content) (w : world) :
  batched (write_world filename content w)
  = batched w ++ config_jobs (filename, content).
Proof.
  unfold batched. simpl. rewrite fmap_app, concat_app. simpl.
  by rewrite app_nil_r.
Qed.

Lemma make_async_submitter_eq self jobs num_processes output verbose w :
  ∃ r w1,
    _make_async_submitter env self jobs num_processes output verbose w
    = (Returned r, w1)
    ∧ batched w1 = batched w ++ jobs.
Proof.
  eexists _, _. split.
  - unfold _make_async_submitter, _create_run_script. run_monad. reflexivity.
  - rewrite !batched_write. simpl. by rewrite app_nil_r.
Qed.

Lemma names_remove_done (completed : gset string) (jobs : list Job.t) :
  Job.name <$> (remove_done completed <$> jobs) = Job.name <$> jobs.
Proof.
  rewrite <- list_fmap_compose. apply list_fmap_ext.
  intros i job _. apply remove_done_name.
Qed.

(** The rest of an iteration once the ready list is known to be [rem]. *)
Lemma loop_tail_keeps (v : loop_vars) (cond : bool) (rem : list Job.t) :
  v_jobs v = rem →
  keeps_files
    (if cond then mret v
     else
       queue ← JobQueue.process_queue env (v_queue v);
       sleep;;
       mret {| v_self := v_self v; v_queue := queue; v_jobs := v_jobs v |})
    (λ v', v_jobs v' = rem).
Proof.
  intros Hv. destruct cond; [by apply keeps_ret|].
  eapply keeps_bind; [apply process_queue_keeps|]. intros queue _.
  eapply keeps_bind; [apply sleep_keeps|]. intros _ _.
  by apply keeps_ret.
Qed.

(** One iteration: the batch packed is written to a file, whatever comes
    after, and when the iteration returns the ready list is what the pops
    left. *)
Lemma loop_body_batched output per_node_batch_size num_processes
    try_add_blocked_jobs verbose (v : loop_vars) (w : world) :
  let jobs := remove_done (completed_jobs env (tick w)) <$> v_jobs v in
  let p := (pack try_add_blocked_jobs per_node_batch_size jobs).1 in
  let r := loop_body env submit_when_full output per_node_batch_size
             num_processes try_add_blocked_jobs verbose v w in
  batched r.2 = batched w ++ _BatchJobs._jobs (batch p)
  ∧ ∀ v', r.1 = Returned v' →
          pop_each (reverse (jobs_to_pop p)) jobs = Ok (v_jobs v').
Proof.
  intros jobs p r. unfold r, loop_body.
  rewrite (bind_returned _ _ _ _ _ (update_completed_eq _ _)).
  fold jobs. cbv zeta. fold p.
  destruct (pack_inv try_add_blocked_jobs per_node_batch_size jobs)
    as (rem & Hpop & _ & _ & Hat & _).
  fold p in Hpop, Hat.
  case_bool_decide as Hsome.
  - destruct (make_async_submitter_eq (v_self v) (_BatchJobs.serialize (batch p))
                num_processes output verbose (tick_world w))
      as ([self a] & w1 & Hmake & Hbatched).
    rewrite bind_assoc, (bind_returned _ _ _ _ _ Hmake).
    match goal with |- batched (?m w1).2 = _ ∧ _ =>
      assert (Hkeeps : keeps_files m (λ v', v_jobs v' = rem)) end.
    { apply (keeps_bind _ _ (λ v', v_jobs v' = rem)).
      - eapply keeps_bind; [apply submit_keeps|]. intros queue _.
        eapply keeps_bind; [apply new_event_keeps|]. intros event _.
        eapply keeps_bind; [apply log_event_keeps|]. intros _ _.
        eapply keeps_bind; [apply lift_result_keeps|]. intros jobs' Hjobs'.
        apply keeps_ret. simpl in *. congruence.
      - intros v' Hv'. by apply loop_tail_keeps. }
    destruct (Hkeeps w1) as [Hfiles Hret].
    split.
    + unfold batched in *. by rewrite Hfiles, Hbatched.
    + intros v' Hv'. by rewrite (Hret v' Hv').
  - assert (Hnone : _BatchJobs._jobs (batch p) = []).
    { unfold _BatchJobs.num_jobs in Hsome.
      destruct (_BatchJobs._jobs (batch p)); [done|]. simpl in Hsome. lia. }
    rewrite Hnone in *. apply Forall2_nil_inv_r in Hat. rewrite Hat in *.
    simpl in *. rewrite app_nil_r.
    match goal with |- batched (?m (tick_world w)).2 = _ ∧ _ =>
      assert (Hkeeps : keeps_files m (λ v', v_jobs v' = jobs)) end.
    { apply (keeps_bind _ _ (λ v', v_jobs v' = jobs)); [by apply keeps_ret|].
      intros v' Hv'. by apply (loop_tail_keeps v' false). }
    destruct (Hkeeps (tick_world w)) as [Hfiles Hret].
    split; [by unfold batched in *; rewrite Hfiles|].
    intros v' Hv'. by rewrite (Hret v' Hv').
Qed.

(** The loop: the batches written hold jobs of the ready list, each at most
    once, and all of them when the loop ends. *)
Lemma while_jobs_batched fuel output per_node_batch_size num_processes
    try_add_blocked_jobs verbose (v : loop_vars) (w : world) :
  let r := while_jobs env submit_when_full fuel output per_node_batch_size
             num_processes try_add_blocked_jobs verbose v w in
  ∃ new,
    batched r.2 = batched w ++ new
    ∧ Job.name <$> new ⊆+ Job.name <$> v_jobs v
    ∧ ∀ v', r.1 = Returned v' → Job.name <$> new ≡ₚ Job.name <$> v_jobs v.
Proof.
  revert v w. induction fuel as [|fuel IH]; intros v w; simpl.
  - destruct (v_jobs v) as [|job rest]; exists []; rewrite app_nil_r;
      (split; [done|]); (split; [apply submseteq_nil_l|]); [done|].
    intros; discriminate.
  - destruct (v_jobs v) as [|job rest] eqn:Hjobs.
    { exists []. rewrite app_nil_r. by repeat split. }
    rewrite <- Hjobs. clear Hjobs job rest.
    pose proof (loop_body_batched output per_node_batch_size num_processes
                  try_add_blocked_jobs verbose v w) as [Hbatched Hret].
    destruct (pack_inv try_add_blocked_jobs per_node_batch_size
                (remove_done (completed_jobs env (tick w)) <$> v_jobs v))
      as (rem & Hpop & Hperm & _).
    apply (fmap_Permutation Job.name) in Hperm.
    rewrite names_remove_done in Hperm.
    set (new := _BatchJobs._jobs
                  (batch (pack try_add_blocked_jobs per_node_batch_size
                            (remove_done (completed_jobs env (tick w)) <$> v_jobs v)).1))
      in *.
    destruct (loop_body env submit_when_full output per_node_batch_size
                num_processes try_add_blocked_jobs verbose v w)
      as [[v1|e|] w1] eqn:Hbody; simpl in Hbatched, Hret.
    + rewrite (bind_returned _ _ _ _ _ Hbody).
      destruct (IH v1 w1) as (new' & Hbatched' & Hsub & Hret').
      assert (Hv1 : v_jobs v1 = rem) by (specialize (Hret v1 eq_refl); congruence).
      rewrite Hv1 in *.
      exists (new ++ new'). split; [|split].
      * by rewrite Hbatched', Hbatched, app_assoc.
      * rewrite Hperm, !fmap_app. by apply submseteq_skips_l.
      * intros v' Hv'. rewrite Hperm, !fmap_app.
        by rewrite (Hret' v' Hv').
    + rewrite (bind_raised _ _ _ _ _ Hbody). simpl.
      exists new. split; [done|]. split; [|intros; discriminate].
      rewrite Hperm, fmap_app. by apply submseteq_inserts_r.
    + rewrite (bind_out_of_fuel _ _ _ _ Hbody). simpl.
      exists new. split; [done|]. split; [|intros; discriminate].
      rewrite Hperm, fmap_app. by apply submseteq_inserts_r.
Qed.

(** C7.  Every job enters at most one batch.  In one iteration of the loop
    the batch packed from the ready list is written to a split
    configuration file; its jobs are the jobs at the recorded indices;
    popping those indices from the last to the first never fails and
    leaves, in their order, the jobs that were not admitted, and that is
    the ready list of the next iteration.  Over a whole run, however it
    ends, the names of the jobs in the batches written are names of the
    configuration's jobs, none more often than there; when the run returns
    they are all of them. *)
Theorem job_enters_at_most_one_batch (fuel : nat) (self : t) (output : string)
    (queue_depth per_node_batch_size : Z) (num_processes : option Z)
    (try_add_blocked_jobs verbose : bool) (v : loop_vars) (w : world) :
  (let jobs := remove_done (completed_jobs env (tick w)) <$> v_jobs v in
   let p := (pack try_add_blocked_jobs per_node_batch_size jobs).1 in
   let r := loop_body env submit_when_full output per_node_batch_size
              num_processes try_add_blocked_jobs verbose v w in
   batched r.2 = batched w ++ _BatchJobs._jobs (batch p)
   ∧ Forall2 (λ k j, jobs !! k = Some j) (jobs_to_pop p) (_BatchJobs._jobs (batch p))
   ∧ ∃ rem,
       pop_each (reverse (jobs_to_pop p)) jobs = Ok rem
       ∧ jobs ≡ₚ _BatchJobs._jobs (batch p) ++ rem
       ∧ rem `sublist_of` jobs
       ∧ ∀ v', r.1 = Returned v' → v_jobs v' = rem)
  ∧ (let r := run env submit_when_full fuel self output queue_depth
                per_node_batch_size num_processes try_add_blocked_jobs verbose w in
     ∃ new,
       batched r.2 = batched w ++ new
       ∧ Job.name <$> new ⊆+ Job.name <$> _config self
       ∧ (NoDup (Job.name <$> _config self) → NoDup (Job.name <$> new))
       ∧ ∀ v', r.1 = Returned v' → Job.name <$> new ≡ₚ Job.name <$> _config self).
Proof.
  split.
  - intros jobs p r.
    pose proof (loop_body_batched output per_node_batch_size num_processes
                  try_add_blocked_jobs verbose v w) as [Hbatched Hret].
    destruct (pack_inv try_add_blocked_jobs per_node_batch_size jobs)
      as (rem & Hpop & Hperm & Hsub & Hat & _).
    split; [done|]. split; [done|].
    exists rem. repeat split; try done.
    intros v' Hv'. specialize (Hret v' Hv'). unfold jobs in Hpop. rewrite Hpop in Hret. by injection Hret.
  - intros r. unfold r, run.
    set (v0 := {| v_self := self; v_queue := JobQueue.__init__ queue_depth;
                  v_jobs := _config self |}).
    destruct (while_jobs_batched fuel output per_node_batch_size num_processes
                try_add_blocked_jobs verbose v0 w) as (new & Hbatched & Hsub & Hret).
    exists new.
    assert (Hdup : NoDup (Job.name <$> _config self) → NoDup (Job.name <$> new)).
    { intros Hnodup. apply submseteq_Permutation in Hsub as [others Hperm].
      simpl in Hperm. rewrite Hperm in Hnodup. by apply NoDup_app in Hnodup as [? _]. }
    destruct (while_jobs env submit_when_full fuel output per_node_batch_size
                num_processes try_add_blocked_jobs verbose v0 w)
      as [[v1|e|] w1] eqn:Hloop; simpl in *.
    + rewrite (bind_returned _ _ _ _ _ Hloop).
      match goal with |- batched (?m w1).2 = _ ∧ _ =>
        assert (Hkeeps : keeps_files m (λ _, True)) end.
      { eapply keeps_bind; [apply wait_keeps|]. intros queue _.
        by apply keeps_ret. }
      destruct (Hkeeps w1) as [Hfiles _].
      split; [by unfold batched in *; rewrite Hfiles|].
      split; [done|]. split; [done|]. intros v' _. by apply (Hret v1).
    + rewrite (bind_raised _ _ _ _ _ Hloop). simpl.
      by repeat split.
    + rewrite (bind_out_of_fuel _ _ _ _ Hloop). simpl.
      by repeat split.
Qed.

End Run.

Lemma job_enters_at_most_one_batch_witness :
  (∀ queue async_batch,
     keeps_files (drop_when_full queue async_batch) (λ _, True))
  ∧ (let r := HpcSubmitter.run good_cluster drop_when_full 5 scenario_submitter
                "out" 1 8 None false false initial_world in
     ∃ new,
       batched r.2 = batched initial_world ++ new
       ∧ Job.name <$> new ⊆+ Job.name <$> HpcSubmitter._config scenario_submitter
       ∧ (NoDup (Job.name <$> HpcSubmitter._config scenario_submitter)
          → NoDup (Job.name <$> new))
       ∧ ∀ v', r.1 = Returned v'
               → Job.name <$> new ≡ₚ Job.name <$> HpcSubmitter._config scenario_submitter).
Proof.
  assert (Hkeeps : ∀ queue async_batch,
             keeps_files (drop_when_full queue async_batch) (λ _, True)).
  { intros queue async_batch w. split; [reflexivity|]. intros a _. exact I. }
  split; [exact Hkeeps|].
  exact (proj2 (job_enters_at_most_one_batch good_cluster drop_when_full Hkeeps
                  5 scenario_submitter "out" 1 8 None false false
                  {| HpcSubmitter.v_self := scenario_submitter;
                     HpcSubmitter.v_queue := JobQueue.__init__ 1;
                     HpcSubmitter.v_jobs := HpcSubmitter._config scenario_submitter |}
                  initial_world)).
Defined.

(** ** Configurations without progress *)

Section Stuck.
Import HpcSubmitter.
Context (env : Env).
Context (submit_when_full : JobQueue.t → AsyncHpcSubmitter.t → M world JobQueue.t).

Lemma pack_from_all_blocked try_add bsize (jobs : list Job.t) i p :
  _BatchJobs._job_names (batch p) = ∅ →
  Forall (λ job, Job.blocked_by job ≠ ∅) jobs →
  ∃ n, pack_from try_add bsize i jobs p
       = ({| batch := batch p; jobs_to_pop := jobs_to_pop p; num_blocked := n |},
          false).
Proof.
  intros Hnames Hall. revert i p Hnames.
  induction Hall as [|job jobs Hjob Hall IH]; intros i p Hnames.
  - exists (num_blocked p). by destruct p.
  - rewrite pack_from_blocked.
    + destruct (IH (S i) (blocked_step p) Hnames) as [n Hn]. by exists n.
    + destruct (_BatchJobs.is_job_blocked (batch p) job try_add) eqn:Hblocked; [done|].
      apply is_job_blocked_false in Hblocked as [Hempty|[_ Hsub]]; [done|].
      rewrite Hnames in Hsub. destruct Hjob. set_solver.
Qed.

Lemma never_ready_blocked (jobs : list Job.t) :
  never_ready env jobs → Forall (λ job, Job.blocked_by job ≠ ∅) jobs.
Proof.
  intros Hjobs. eapply Forall_impl; [exact Hjobs|].
  intros job (blocker & Hin & _). set_solver.
Qed.

Lemma never_ready_remove_done (jobs : list Job.t) n :
  never_ready env jobs →
  never_ready env (remove_done (completed_jobs env n) <$> jobs).
Proof.
  intros Hjobs. apply Forall_fmap. eapply Forall_impl; [exact Hjobs|].
  intros job (blocker & Hin & Hnever). exists blocker. split; [|done].
  simpl. rewrite remove_done_blocked_by. specialize (Hnever n). set_solver.
Qed.

(** An iteration over jobs that cannot become ready, with nothing in
    flight: no batch, an empty poll, a sleep. *)
Lemma loop_body_stuck output per_node_batch_size num_processes
    try_add_blocked_jobs verbose (v : loop_vars) (w : world) :
  never_ready env (v_jobs v) →
  JobQueue.in_flight (v_queue v) = [] →
  ∃ v' w',
    loop_body env submit_when_full output per_node_batch_size num_processes
      try_add_blocked_jobs verbose v w = (Returned v', w')
    ∧ v_jobs v' = remove_done (completed_jobs env (tick w)) <$> v_jobs v
    ∧ JobQueue.in_flight (v_queue v') = []
    ∧ event_log w' = event_log w
    ∧ files w' = files w.
Proof.
  intros Hstuck Hqueue. unfold loop_body.
  rewrite (bind_returned _ _ _ _ _ (update_completed_eq _ _ _)).
  destruct (pack_from_all_blocked try_add_blocked_jobs per_node_batch_size
              (remove_done (completed_jobs env (tick w)) <$> v_jobs v)
              0 packing_start eq_refl) as [n Hpack].
  { by apply never_ready_blocked, never_ready_remove_done. }
  unfold pack. rewrite Hpack. simpl.
  unfold JobQueue.process_queue. run_monad. simpl. rewrite Hqueue. simpl.
  eexists _, _. split; [reflexivity|]. by simpl.
Qed.

Lemma while_jobs_stuck fuel output per_node_batch_size num_processes
    try_add_blocked_jobs verbose (v : loop_vars) (w : world) :
  v_jobs v ≠ [] →
  never_ready env (v_jobs v) →
  JobQueue.in_flight (v_queue v) = [] →
  let r := while_jobs env submit_when_full fuel output per_node_batch_size
             num_processes try_add_blocked_jobs verbose v w in
  r.1 = OutOfFuel ∧ event_log r.2 = event_log w ∧ files r.2 = files w.
Proof.
  revert v w. induction fuel as [|fuel IH]; intros v w Hsome Hstuck Hqueue; simpl.
  - by destruct (v_jobs v).
  - destruct (v_jobs v) as [|job rest] eqn:Hjobs; [done|].
    destruct (loop_body_stuck output per_node_batch_size num_processes
                try_add_blocked_jobs verbose v w) as (v' & w' & Hbody & Hv' & Hq' & Hlog & Hfiles).
    { by rewrite Hjobs. }
    { done. }
    rewrite (bind_returned _ _ _ _ _ Hbody).
    destruct (IH v' w') as (Hout & Hlog' & Hfiles').
    + rewrite Hv', Hjobs. done.
    + rewrite Hv'. apply never_ready_remove_done. by rewrite Hjobs.
    + done.
    + split; [done|]. split; congruence.
Qed.

(** C2, as the code has it.  When the configuration has jobs and every
    one of them waits for a job that never shows among the completed
    results (a dependency cycle is such a configuration), [run] does not
    end: whatever number of iterations it is given, it is still inside
    [while jobs], it has raised nothing, and it has emitted no event and
    written no file.  No [InvalidConfiguration] is reported. *)
Theorem stuck_run_never_ends (fuel : nat) (self : t) (output : string)
    (queue_depth per_node_batch_size : Z) (num_processes : option Z)
    (try_add_blocked_jobs verbose : bool) (w : world) :
  _config self ≠ [] →
  never_ready env (_config self) →
  let r := run env submit_when_full fuel self output queue_depth
             per_node_batch_size num_processes try_add_blocked_jobs verbose w in
  r.1 = OutOfFuel
  ∧ (∀ msg, r.1 ≠ Raised (InvalidConfiguration msg))
  ∧ event_log r.2 = event_log w
  ∧ files r.2 = files w.
Proof.
  intros Hsome Hstuck r. unfold r, run.
  set (v0 := {| v_self := self; v_queue := JobQueue.__init__ queue_depth;
                v_jobs := _config self |}).
  destruct (while_jobs_stuck fuel output per_node_batch_size num_processes
              try_add_blocked_jobs verbose v0 w Hsome Hstuck eq_refl)
    as (Hout & Hlog & Hfiles).
  destruct (while_jobs env submit_when_full fuel output per_node_batch_size
              num_processes try_add_blocked_jobs verbose v0 w)
    as [o w1] eqn:Hloop.
  simpl in Hout, Hlog, Hfiles. subst o.
  rewrite (bind_out_of_fuel _ _ _ _ Hloop). simpl.
  by repeat split.
Qed.

End Stuck.

Lemma cycle_never_ready : never_ready good_cluster scenario_cycle.
Proof.
  repeat constructor.
  - exists "B". split; [set_solver|]. intros n. set_solver.
  - exists "A". split; [set_solver|]. intros n. set_solver.
Qed.

Lemma stuck_run_never_ends_witness :
  HpcSubmitter._config cycle_submitter ≠ []
  ∧ never_ready good_cluster (HpcSubmitter._config cycle_submitter)
  ∧ (let r := HpcSubmitter.run good_cluster drop_when_full 3 cycle_submitter
                "out" 1 8 None true false initial_world in
     r.1 = OutOfFuel
     ∧ (∀ msg, r.1 ≠ Raised (InvalidConfiguration msg))
     ∧ event_log r.2 = event_log initial_world
     ∧ files r.2 = files initial_world).
Proof.
  assert (Hsome : HpcSubmitter._config cycle_submitter ≠ []) by (simpl; discriminate).
  split; [exact Hsome|]. split; [exact cycle_never_ready|].
  exact (stuck_run_never_ends good_cluster drop_when_full 3 cycle_submitter
           "out" 1 8 None true false initial_world Hsome cycle_never_ready).
Defined.

(** With the cycle [A] blocked by [B], [B] blocked by [A], the run neither
    returns nor raises, however long it is left to run. *)
Lemma cycle_run_counterexample :
  ¬ (∃ fuel try_add_blocked_jobs,
       (HpcSubmitter.run good_cluster drop_when_full fuel cycle_submitter
          "out" 1 8 None try_add_blocked_jobs false initial_world).1
       ≠ OutOfFuel)
  ∧ ¬ (∃ fuel try_add_blocked_jobs msg,
         (HpcSubmitter.run good_cluster drop_when_full fuel cycle_submitter
            "out" 1 8 None try_add_blocked_jobs false initial_world).1
         = Raised (InvalidConfiguration msg)).
Proof.
  assert (Hout : ∀ fuel try_add,
             (HpcSubmitter.run good_cluster drop_when_full fuel cycle_submitter
                "out" 1 8 None try_add false initial_world).1 = OutOfFuel).
  { intros fuel try_add. unfold HpcSubmitter.run.
    match goal with |- ((?m ≫= _) _).1 = _ =>
      destruct (m initial_world) as [o w1] eqn:Hloop end.
    pose proof (while_jobs_stuck good_cluster drop_when_full fuel "out" 8 None
                  try_add false
                  {| HpcSubmitter.v_self := cycle_submitter;
                     HpcSubmitter.v_queue := JobQueue.__init__ 1;
                     HpcSubmitter.v_jobs := HpcSubmitter._config cycle_submitter |}
                  initial_world) as Hstuck.
    destruct Hstuck as (Ho & _); [simpl; discriminate|exact cycle_never_ready|done|].
    rewrite Hloop in Ho. simpl in Ho. subst o.
    by rewrite (bind_out_of_fuel _ _ _ _ Hloop). }
  split.
  - intros (fuel & try_add & Hne). by destruct Hne.
  - intros (fuel & try_add & msg & Hraised). by rewrite Hout in Hraised.
Qed.

(** ** The order of the events of a batch *)

Section Ordering.
Import HpcSubmitter.
Context (env : Env).
Context (submit_when_full : JobQueue.t → AsyncHpcSubmitter.t → M world JobQueue.t).








End Ordering.


